(** * Faucet: a shallow embedding of the Solidity contracts

    The development follows [contracts/Owned.sol], [contracts/Logger.sol]
    and [contracts/FaucetContract.sol].  Contract storage is a record, the
    two Solidity mappings are finite maps read with Solidity's default
    value, a [require] is a branch into [Revert], and an external call is
    a function from the world before the call to an [Outcome]. *)

From Stdlib Require Import ZArith Lia String.
From stdpp Require Import base decidable option list list_numbers gmap.

Local Open Scope Z_scope.

(** ** Machine types *)

(** A Solidity [address] is a 160-bit number, a [uint] a 256-bit one and a
    [uint8] an 8-bit one.  They are carried as [Z] with their range as a
    predicate. *)
Abbreviation address := Z.

Definition address_bound : Z := 2 ^ 160.
Definition uint256_max : Z := 2 ^ 256 - 1.

Definition is_address (a : Z) : Prop := 0 <= a < address_bound.
Definition is_uint256 (n : Z) : Prop := 0 <= n <= uint256_max.
Definition is_uint8 (n : Z) : Prop := 0 <= n < 256.

Global Instance is_address_dec (a : Z) : Decision (is_address a).
Proof. unfold is_address. apply _. Defined.

Global Instance is_uint8_dec (n : Z) : Decision (is_uint8 n).
Proof. unfold is_uint8. apply _. Defined.

(** [address(0)], the value of an unset [address] slot. *)
Definition address_zero : address := 0.

(** ** Reverts *)

Inductive Error : Set :=
| LimitExceeded      (* require in limitWithdraw *)
| NotAuthorized      (* require in onlyOwner *)
| InsufficientFunds  (* transfer: the vault holds less than the amount *)
| TransferRefused    (* transfer: the recipient's code rejected the value *)
| Overflow           (* checked arithmetic (Solidity 0.8) *)
| Unfunded.          (* the caller does not hold the value it attaches *)

Inductive Result (A : Type) : Type :=
| Ok (a : A)
| Revert (e : Error).
Arguments Ok {A} a.
Arguments Revert {A} e.

Definition bind {A B} (r : Result A) (k : A -> Result B) : Result B :=
  match r with
  | Ok a => k a
  | Revert e => Revert e
  end.

Notation "x <- r ;; k" := (bind r (fun x => k))
  (at level 100, r at next level, right associativity).

(** ** Storage *)

(** [owner] comes from Owned, [testNum] from Logger, the rest from Faucet. *)
Record Storage : Type := mkStorage {
  owner : address;
  testNum : Z;
  numOfFunders : Z;
  funders : gmap Z bool;
  lutFunders : gmap Z Z
}.

(** Reading a mapping: an absent key reads as the type's zero value. *)
Definition funders_at (st : Storage) (a : address) : bool :=
  default false (funders st !! a).

Definition lutFunders_at (st : Storage) (i : Z) : address :=
  default address_zero (lutFunders st !! i).

(** ** The environment *)

(** The pragma admits compilers with wrapping arithmetic (before 0.8) and
    with checked arithmetic (0.8); [checked_arith] says which one built the
    contract.  [accepts_transfer a] says whether the account at [a] takes
    a plain value transfer: an externally owned account always does, a
    contract does when it has a payable receive or fallback function that
    runs within the stipend of [transfer]. *)
Record Env : Type := mkEnv {
  checked_arith : bool;
  accepts_transfer : address -> bool
}.

(** The vault's storage and balance, and the balances of the accounts that
    call it.  Balances are integers without wrap-around: the currency's
    total supply is far below [2 ^ 256].  The vault issues no call to
    itself, so a caller is always one of [accounts]. *)
Record World : Type := mkWorld {
  vault : Storage;
  balance : Z;
  accounts : gmap Z Z
}.

Definition balance_of (w : World) (a : address) : Z :=
  default 0 (accounts w !! a).

Definition with_vault (w : World) (st : Storage) : World :=
  {| vault := st; balance := balance w; accounts := accounts w |}.

(** ** Owned.sol *)

Definition Owned_constructor (sender : address) (st : Storage) : Storage :=
  {| owner := sender; testNum := testNum st; numOfFunders := numOfFunders st;
     funders := funders st; lutFunders := lutFunders st |}.

Definition onlyOwner {A} (sender : address) (st : Storage)
    (body : Result A) : Result A :=
  if sender =? owner st then body else Revert NotAuthorized.

(** ** Logger.sol *)

Definition Logger_constructor (st : Storage) : Storage :=
  {| owner := owner st; testNum := 1000; numOfFunders := numOfFunders st;
     funders := funders st; lutFunders := lutFunders st |}.

Definition test3 : Z := 100.

Definition test5 : Z := let _ := test3 in 10.

(** ** FaucetContract.sol *)

Definition limitWithdraw {A} (withdrawAmount : Z) (body : Result A) : Result A :=
  if withdrawAmount <=? 100000000000000000 then body
  else Revert LimitExceeded.

(** The bytes32 literal, without its padding of zero bytes. *)
Definition emitLog : string := "Hello World"%string.

(** [n++] on a uint: the value of the expression and the new value of the
    variable. *)
Definition post_increment (e : Env) (n : Z) : Result (Z * Z) :=
  if checked_arith e then
    if n <? uint256_max then Ok (n, n + 1) else Revert Overflow
  else Ok (n, (n + 1) mod 2 ^ 256).

Definition addFunds (e : Env) (sender : address) (st : Storage) : Result Storage :=
  let funder := sender in
  let _ := test3 in
  if negb (funders_at st funder) then
    r <- post_increment e (numOfFunders st) ;;
    let index := fst r in
    Ok {| owner := owner st; testNum := testNum st;
          numOfFunders := snd r;
          funders := <[funder := true]> (funders st);
          lutFunders := <[index := funder]> (lutFunders st) |}
  else Ok st.

Definition test1 (sender : address) (st : Storage) : Result Storage :=
  onlyOwner sender st (Ok st).

Definition test2 (sender : address) (st : Storage) : Result Storage :=
  onlyOwner sender st (Ok st).

(** [payable(to).transfer(amount)]: reverts when the vault cannot pay or
    when the recipient does not take the value. *)
Definition transfer (e : Env) (to : address) (amount : Z) (w : World) : Result World :=
  if balance w <? amount then Revert InsufficientFunds
  else if negb (accepts_transfer e to) then Revert TransferRefused
  else Ok {| vault := vault w;
             balance := balance w - amount;
             accounts := <[to := balance_of w to + amount]> (accounts w) |}.

Definition withdraw (e : Env) (sender : address) (withdrawAmount : Z)
    (w : World) : Result World :=
  limitWithdraw withdrawAmount (transfer e sender withdrawAmount w).

(** The loop of [getAllFunders]; [fuel] bounds the number of iterations. *)
Fixpoint getAllFunders_loop (fuel : nat) (st : Storage) (i : Z)
    (_funders : list Z) : list Z :=
  match fuel with
  | O => _funders
  | S fuel' =>
      if i <? numOfFunders st then
        getAllFunders_loop fuel' st (i + 1)
          (<[Z.to_nat i := lutFunders_at st i]> _funders)
      else _funders
  end.

Definition getAllFunders (st : Storage) : list Z :=
  let n := Z.to_nat (numOfFunders st) in
  getAllFunders_loop n st 0 (replicate n address_zero).

Definition getFunderAtIndex (st : Storage) (index : Z) : address :=
  lutFunders_at st index.

(** Storage of a contract before its constructors run. *)
Definition empty_storage : Storage :=
  {| owner := address_zero; testNum := 0; numOfFunders := 0;
     funders := ∅; lutFunders := ∅ |}.

(** Deployment runs the constructors of the bases in order. *)
Definition Faucet_constructor (sender : address) : Storage :=
  Logger_constructor (Owned_constructor sender empty_storage).

(** ** External calls *)

Inductive Call : Type :=
| AddFunds (value : Z)
| Receive (value : Z)
| Withdraw (withdrawAmount : Z)
| Test1
| Test2
| Test5
| EmitLog
| GetAllFunders
| GetFunderAtIndex (index : Z)
| GetOwner
| GetNumOfFunders
| GetTestNum.

Record Tx : Type := mkTx { tx_sender : address; tx_call : Call }.

Inductive Ret : Type :=
| RNone
| RAddress (a : Z)
| RAddresses (l : list Z)
| RUint (n : Z)
| RBytes32 (s : string).

Inductive Outcome : Type :=
| Success (r : Ret) (w : World)
| Reverted (e : Error).

(** A payable call moves the attached value from the caller to the vault
    before the body runs. *)
Definition attach (sender : address) (value : Z) (w : World) : Result World :=
  if (0 <=? value) && (value <=? balance_of w sender) then
    Ok {| vault := vault w;
          balance := balance w + value;
          accounts := <[sender := balance_of w sender - value]> (accounts w) |}
  else Revert Unfunded.

Definition finish (r : Ret) (res : Result World) : Outcome :=
  match res with
  | Ok w => Success r w
  | Revert e => Reverted e
  end.

Definition exec (e : Env) (w : World) (tx : Tx) : Outcome :=
  let sender := tx_sender tx in
  match tx_call tx with
  | AddFunds value =>
      finish RNone (w1 <- attach sender value w ;;
                    st <- addFunds e sender (vault w1) ;;
                    Ok (with_vault w1 st))
  | Receive value => finish RNone (attach sender value w)
  | Withdraw withdrawAmount => finish RNone (withdraw e sender withdrawAmount w)
  | Test1 => finish RNone (st <- test1 sender (vault w) ;; Ok (with_vault w st))
  | Test2 => finish RNone (st <- test2 sender (vault w) ;; Ok (with_vault w st))
  | Test5 => Success (RUint test5) w
  | EmitLog => Success (RBytes32 emitLog) w
  | GetAllFunders => Success (RAddresses (getAllFunders (vault w))) w
  | GetFunderAtIndex index => Success (RAddress (getFunderAtIndex (vault w) index)) w
  | GetOwner => Success (RAddress (owner (vault w))) w
  | GetNumOfFunders => Success (RUint (numOfFunders (vault w))) w
  | GetTestNum => Success (RUint (testNum (vault w))) w
  end.

(** A reverted call leaves no trace: the world after it is the world
    before it. *)
Definition after (e : Env) (w : World) (tx : Tx) : World :=
  match exec e w tx with
  | Success _ w' => w'
  | Reverted _ => w
  end.

Fixpoint run (e : Env) (w : World) (txs : list Tx) : World :=
  match txs with
  | [] => w
  | tx :: rest => run e (after e w tx) rest
  end.

(** The world right after deployment by [deployer]; the vault's address
    may already hold [bal]. *)
Definition deploy (deployer : address) (bal : Z) (accts : gmap Z Z) : World :=
  {| vault := Faucet_constructor deployer; balance := bal; accounts := accts |}.

Inductive reachable (e : Env) : World -> Prop :=
| reach_deploy deployer bal accts :
    is_address deployer -> reachable e (deploy deployer bal accts)
| reach_call w tx :
    reachable e w -> is_address (tx_sender tx) -> reachable e (after e w tx).

(** ** The registry as the specification sees it *)

Definition funderCount (w : World) : Z := numOfFunders (vault w).
Definition funderOrder (w : World) : list Z := getAllFunders (vault w).
Definition funderFlags (w : World) (id : address) : bool := funders_at (vault w) id.

(** The elements of a list in the order of their first occurrence. *)
Fixpoint first_occurrences (l : list Z) : list Z :=
  match l with
  | [] => []
  | x :: rest => x :: filter (fun y => y ≠ x) (first_occurrences rest)
  end.

(** The senders of the deposits of [txs] that went through, oldest first. *)
Fixpoint depositors (e : Env) (w : World) (txs : list Tx) : list Z :=
  match txs with
  | [] => []
  | tx :: rest =>
      match tx_call tx, exec e w tx with
      | AddFunds _, Success _ _ => tx_sender tx :: depositors e (after e w tx) rest
      | _, _ => depositors e (after e w tx) rest
      end
  end.

(** Every call of [txs], run in order from [w], goes through. *)
Fixpoint all_succeed (e : Env) (w : World) (txs : list Tx) : bool :=
  match txs with
  | [] => true
  | tx :: rest =>
      match exec e w tx with
      | Success _ w' => all_succeed e w' rest
      | Reverted _ => false
      end
  end.

(** ** Auxiliary definitions of the proofs *)

(** The invariant of the registry. *)
Record Inv (st : Storage) : Prop := mkInv {
  inv_count : 0 <= numOfFunders st;
  inv_nodup : NoDup (getAllFunders st);
  inv_addr : Forall is_address (getAllFunders st);
  inv_flags : forall a, funders_at st a = true <-> a ∈ getAllFunders st;
  inv_unset : forall i, numOfFunders st <= i -> lutFunders_at st i = address_zero
}.

(** The registry's storage after a deposit by [s]. *)
Definition registered (s : address) (st : Storage) : Storage :=
  if funders_at st s then st
  else {| owner := owner st; testNum := testNum st;
          numOfFunders := numOfFunders st + 1;
          funders := <[s := true]> (funders st);
          lutFunders := <[numOfFunders st := s]> (lutFunders st) |}.

(** A run of deposits, given as (sender, value) pairs. *)
Definition deposit_txs (ds : list (Z * Z)) : list Tx :=
  (fun d => mkTx (fst d) (AddFunds (snd d))) <$> ds.

(** ** The scenario of the contract's trailing comment *)

Definition env0 : Env := {| checked_arith := true; accepts_transfer := fun _ => true |}.
Definition ether : Z := 1000000000000000000.
Definition world0 : World := deploy 10 0 (<[11 := 5 * ether]> (<[12 := 5 * ether]> ∅)).
Definition scenario : list Tx :=
  [ mkTx 11 (AddFunds (2 * ether)); mkTx 12 (AddFunds (2 * ether));
    mkTx 11 (AddFunds ether) ].

(** A caller whose code takes no value: account 13 is such a contract. *)
Definition env_refusing : Env :=
  {| checked_arith := true; accepts_transfer := fun a => negb (a =? 13) |}.

Definition world_funded : World := deploy 10 ether ∅.

(** 257 first-time depositors, accounts 1 to 257, each attaching nothing. *)
Definition crowd : list (Z * Z) := (fun k => (k, 0)) <$> seqZ 1 257.
Definition world_crowded : World := run env0 (deploy 10 0 ∅) (deposit_txs crowd).

(** ** Migrations.sol *)

Module Migrations.

Record Storage : Type := mkStorage {
  owner : address;
  last_completed_migration : Z
}.

(** [address public owner = msg.sender]: the deployer becomes the owner;
    [last_completed_migration] starts at zero. *)
Definition deploy (sender : address) : Storage :=
  {| owner := sender; last_completed_migration := 0 |}.

(** A failed [require] is [None]. *)
Definition restricted {A} (sender : address) (st : Storage)
    (body : option A) : option A :=
  if sender =? owner st then body else None.

Definition setCompleted (sender : address) (completed : Z) (st : Storage)
    : option Storage :=
  restricted sender st
    (Some {| owner := owner st; last_completed_migration := completed |}).

(** A call is a sender with the argument of [setCompleted]; a reverted
    call leaves the storage as it was. *)
Definition after (st : Storage) (call : Z * Z) : Storage :=
  default st (setCompleted (fst call) (snd call) st).

Definition run (st : Storage) (calls : list (Z * Z)) : Storage :=
  fold_left after calls st.

(** The arguments of the calls that [who] sent, oldest first. *)
Definition sent_by (who : address) (calls : list (Z * Z)) : list Z :=
  snd <$> filter (fun c => fst c = who) calls.

End Migrations.

(** ** The scenario, evaluated *)

Example scenario_funders :
  getAllFunders (vault (run env0 world0 scenario)) = [11; 12]
  /\ numOfFunders (vault (run env0 world0 scenario)) = 2
  /\ balance (run env0 world0 scenario) = 5 * ether.
Proof. vm_compute. auto. Qed.

Example scenario_over_limit :
  exec env0 (run env0 world0 scenario) (mkTx 13 (Withdraw 500000000000000000))
  = Reverted LimitExceeded.
Proof. reflexivity. Qed.

Example scenario_withdraw :
  let w := after env0 (run env0 world0 scenario) (mkTx 13 (Withdraw 100000000000000000)) in
  balance w = 4900000000000000000 /\ balance_of w 13 = 100000000000000000
  /\ getAllFunders (vault w) = [11; 12].
Proof. vm_compute. auto. Qed.

(** ** Ranges *)

Lemma address_bound_pos : 0 < address_bound.
Proof. reflexivity. Qed.

Lemma address_bound_lt_uint256_max : address_bound < uint256_max.
Proof. reflexivity. Qed.

Lemma uint256_max_succ : uint256_max + 1 = 2 ^ 256.
Proof. reflexivity. Qed.

(** A duplicate-free list of addresses has at most [address_bound]
    elements: it embeds into the list of all of them. *)
Lemma NoDup_addresses_length (l : list Z) :
  NoDup l -> Forall is_address l -> Z.of_nat (length l) <= address_bound.
Proof.
  intros Hnd Hall.
  assert (Hsub : l ⊆+ seqZ 0 address_bound).
  { apply NoDup_submseteq; [exact Hnd|].
    intros x Hx. rewrite Forall_forall in Hall.
    apply elem_of_seqZ. specialize (Hall x Hx). unfold is_address in Hall. lia. }
  apply submseteq_length in Hsub. rewrite length_seqZ in Hsub.
  pose proof address_bound_pos. lia.
Qed.

(** ** The loop of getAllFunders *)

Lemma getAllFunders_loop_spec (st : Storage) (fuel k : nat) (arr : list Z) :
  let N := Z.to_nat (numOfFunders st) in
  length arr = N -> (k <= N)%nat -> (N - k <= fuel)%nat ->
  getAllFunders_loop fuel st (Z.of_nat k) arr
  = take k arr ++ (lutFunders_at st <$> seqZ (Z.of_nat k) (Z.of_nat (N - k))).
Proof.
  intros N. revert k arr.
  induction fuel as [|fuel IH]; intros k arr Hlen Hk Hfuel.
  - assert (k = N) by lia. subst k. simpl.
    rewrite Nat.sub_diag. simpl. rewrite app_nil_r.
    by rewrite take_ge by lia.
  - simpl. destruct (Z.ltb_spec (Z.of_nat k) (numOfFunders st)) as [Hlt|Hge].
    + assert (Hk' : (k < N)%nat) by (unfold N; lia).
      replace (Z.of_nat k + 1) with (Z.of_nat (S k)) by lia.
      rewrite IH; [|by rewrite length_insert|lia|lia].
      rewrite Nat2Z.id.
      rewrite (take_S_r _ _ (lutFunders_at st (Z.of_nat k))).
      2:{ apply list_lookup_insert_eq. lia. }
      rewrite take_insert_ge by lia.
      replace (Z.of_nat (N - k)) with (Z.succ (Z.of_nat (N - S k))) by lia.
      rewrite (seqZ_cons (Z.of_nat k)) by lia.
      rewrite Z.pred_succ. rewrite fmap_cons.
      replace (Z.succ (Z.of_nat k)) with (Z.of_nat (S k)) by lia.
      by rewrite <- app_assoc.
    + assert (k = N) by (unfold N in *; lia). subst k.
      rewrite Nat.sub_diag. simpl. rewrite app_nil_r.
      by rewrite take_ge by lia.
Qed.

(** What the loop computes: the slots [0 .. numOfFunders - 1] in order. *)
Lemma getAllFunders_eq (st : Storage) :
  getAllFunders st = lutFunders_at st <$> seqZ 0 (numOfFunders st).
Proof.
  unfold getAllFunders.
  rewrite (getAllFunders_loop_spec st _ 0); [|by rewrite length_replicate|lia|lia].
  simpl. rewrite Nat.sub_0_r.
  destruct (Z.le_gt_cases 0 (numOfFunders st)) as [Hn|Hn].
  - by rewrite Z2Nat.id.
  - rewrite Z2Nat.nonpos by lia. simpl. by rewrite seqZ_nil by lia.
Qed.

(** The loop has left through its exit test once [numOfFunders] iterations
    are done: more fuel does not change the result. *)
Lemma getAllFunders_fuel (st : Storage) (extra : nat) :
  let n := Z.to_nat (numOfFunders st) in
  getAllFunders_loop (n + extra) st 0 (replicate n address_zero) = getAllFunders st.
Proof.
  intros n. unfold getAllFunders. fold n.
  rewrite (getAllFunders_loop_spec st _ 0); [|by rewrite length_replicate|lia|lia].
  by rewrite (getAllFunders_loop_spec st n 0); [|by rewrite length_replicate|lia|lia].
Qed.

Lemma length_getAllFunders (st : Storage) :
  length (getAllFunders st) = Z.to_nat (numOfFunders st).
Proof. by rewrite getAllFunders_eq, length_fmap, length_seqZ. Qed.

Lemma lookup_getAllFunders (st : Storage) (i : nat) :
  Z.of_nat i < numOfFunders st ->
  getAllFunders st !! i = Some (lutFunders_at st (Z.of_nat i)).
Proof.
  intros Hi. rewrite getAllFunders_eq, list_lookup_fmap.
  by rewrite lookup_seqZ_lt.
Qed.

(** ** One deposit *)

Section Deposit.
Context (e : Env).

Lemma post_increment_ok (n : Z) :
  0 <= n < uint256_max -> post_increment e n = Ok (n, n + 1).
Proof.
  intros Hn. unfold post_increment. destruct (checked_arith e).
  - destruct (Z.ltb_spec n uint256_max); [done|lia].
  - rewrite Z.mod_small; [done|]. rewrite <- uint256_max_succ. lia.
Qed.

Lemma addFunds_known (s : address) (st : Storage) :
  funders_at st s = true -> addFunds e s st = Ok st.
Proof. intros Hs. unfold addFunds. by rewrite Hs. Qed.

Lemma addFunds_new (s : address) (st : Storage) :
  0 <= numOfFunders st < uint256_max -> funders_at st s = false ->
  addFunds e s st
  = Ok {| owner := owner st; testNum := testNum st;
          numOfFunders := numOfFunders st + 1;
          funders := <[s := true]> (funders st);
          lutFunders := <[numOfFunders st := s]> (lutFunders st) |}.
Proof.
  intros Hn Hs. unfold addFunds. rewrite Hs. simpl.
  by rewrite post_increment_ok.
Qed.

End Deposit.

(** Writing slot [numOfFunders] and counting it extends the array that
    [getAllFunders] returns by one element. *)
Lemma getAllFunders_push (st : Storage) (s : address) (o : address) (t : Z)
    (f : gmap Z bool) :
  0 <= numOfFunders st ->
  getAllFunders {| owner := o; testNum := t;
                   numOfFunders := numOfFunders st + 1;
                   funders := f;
                   lutFunders := <[numOfFunders st := s]> (lutFunders st) |}
  = getAllFunders st ++ [s].
Proof.
  intros Hn. rewrite !getAllFunders_eq. simpl.
  replace (numOfFunders st + 1) with (Z.of_nat (S (Z.to_nat (numOfFunders st)))) by lia.
  rewrite seqZ_S, fmap_app, Z2Nat.id by lia. simpl.
  f_equal.
  - apply list_fmap_ext. intros i x Hx.
    apply lookup_seqZ in Hx as [-> Hi].
    unfold lutFunders_at. simpl. by rewrite lookup_insert_ne by lia.
  - unfold lutFunders_at. simpl. by rewrite lookup_insert_eq.
Qed.

(** ** The invariant of the registry *)

Lemma Inv_constructor (deployer : address) : Inv (Faucet_constructor deployer).
Proof.
  split; try done.
  - apply NoDup_nil_2.
  - intros a. split; [done|]. intros Ha. by apply elem_of_nil in Ha.
Qed.

(** The counter stays far from the end of its range. *)
Lemma Inv_bound (st : Storage) : Inv st -> 0 <= numOfFunders st <= address_bound.
Proof.
  intros [Hn Hnd Haddr _ _]. split; [done|].
  pose proof (NoDup_addresses_length _ Hnd Haddr) as Hlen.
  rewrite length_getAllFunders in Hlen. lia.
Qed.

Lemma Inv_room (st : Storage) : Inv st -> 0 <= numOfFunders st < uint256_max.
Proof.
  intros Hinv. pose proof (Inv_bound st Hinv).
  pose proof address_bound_lt_uint256_max. lia.
Qed.

Lemma Inv_push (st : Storage) (s : address) :
  Inv st -> is_address s -> funders_at st s = false ->
  Inv {| owner := owner st; testNum := testNum st;
         numOfFunders := numOfFunders st + 1;
         funders := <[s := true]> (funders st);
         lutFunders := <[numOfFunders st := s]> (lutFunders st) |}.
Proof.
  intros Hinv Hs Hnew. pose proof Hinv as [Hn Hnd Haddr Hflags Hunset].
  assert (Hnotin : s ∉ getAllFunders st).
  { intros Hin. apply Hflags in Hin. congruence. }
  split; simpl; rewrite ?getAllFunders_push by done.
  - lia.
  - apply NoDup_app. split; [done|]. split; [|apply NoDup_singleton].
    intros x Hx Hx'. apply list_elem_of_singleton in Hx'. by subst x.
  - apply Forall_app. split; [done|]. by apply Forall_singleton.
  - intros a. unfold funders_at. simpl. rewrite elem_of_app, list_elem_of_singleton.
    destruct (decide (s = a)) as [->|Hne].
    + rewrite lookup_insert_eq. simpl. split; auto.
    + rewrite lookup_insert_ne by done. fold (funders_at st a).
      rewrite Hflags. split; [auto|]. intros [?|?]; [done|congruence].
  - intros i Hi. unfold lutFunders_at. simpl.
    rewrite lookup_insert_ne by lia. apply Hunset. lia.
Qed.

Section Steps.
Context (e : Env).

Lemma addFunds_registered (s : address) (st : Storage) :
  Inv st -> addFunds e s st = Ok (registered s st).
Proof.
  intros Hinv. unfold registered. destruct (funders_at st s) eqn:Hs.
  - by apply addFunds_known.
  - apply addFunds_new; [by apply Inv_room|done].
Qed.

Lemma Inv_registered (s : address) (st : Storage) :
  Inv st -> is_address s -> Inv (registered s st).
Proof.
  intros Hinv Hs. unfold registered. destruct (funders_at st s) eqn:Hf; [done|].
  by apply Inv_push.
Qed.

Lemma getAllFunders_registered (s : address) (st : Storage) :
  Inv st ->
  getAllFunders (registered s st)
  = getAllFunders st ++ (if decide (s ∈ getAllFunders st) then [] else [s]).
Proof.
  intros Hinv. unfold registered. destruct (funders_at st s) eqn:Hf.
  - rewrite decide_True; [by rewrite app_nil_r|]. by apply (inv_flags st Hinv).
  - rewrite decide_False.
    + apply getAllFunders_push. by destruct Hinv.
    + intros Hin. apply (inv_flags st Hinv) in Hin. congruence.
Qed.

(** A call is either a deposit that went through, and then the storage is
    [registered], or it leaves the storage as it was. *)
Lemma vault_after (w : World) (tx : Tx) :
  Inv (vault w) ->
  vault (after e w tx)
  = match tx_call tx, exec e w tx with
    | AddFunds _, Success _ _ => registered (tx_sender tx) (vault w)
    | _, _ => vault w
    end.
Proof.
  intros Hinv. unfold after, exec.
  destruct tx as [s c]. simpl. destruct c; simpl; try done.
  - unfold attach.
    destruct ((0 <=? value) && (value <=? balance_of w s)); simpl; [|done].
    by rewrite addFunds_registered.
  - unfold attach.
    by destruct ((0 <=? value) && (value <=? balance_of w s)).
  - unfold withdraw, limitWithdraw, transfer.
    destruct (withdrawAmount <=? 100000000000000000); [|done].
    destruct (balance w <? withdrawAmount); [done|].
    by destruct (accepts_transfer e s).
  - unfold test1, onlyOwner. by destruct (s =? owner (vault w)).
  - unfold test2, onlyOwner. by destruct (s =? owner (vault w)).
Qed.

Lemma Inv_after (w : World) (tx : Tx) :
  Inv (vault w) -> is_address (tx_sender tx) -> Inv (vault (after e w tx)).
Proof.
  intros Hinv Hs. rewrite vault_after by done.
  destruct (tx_call tx); try done.
  destruct (exec e w tx); [|done]. by apply Inv_registered.
Qed.

Lemma reachable_Inv (w : World) : reachable e w -> Inv (vault w).
Proof.
  induction 1 as [deployer bal accts Hd|w tx Hw IH Hs].
  - apply Inv_constructor.
  - by apply Inv_after.
Qed.

Lemma reachable_run (w : World) (txs : list Tx) :
  reachable e w -> Forall (fun tx => is_address (tx_sender tx)) txs ->
  reachable e (run e w txs).
Proof.
  intros Hw Hall. revert w Hw.
  induction Hall as [|tx txs Htx Hall IH]; intros w Hw; simpl; [done|].
  apply IH. by apply reach_call.
Qed.

End Steps.

(** ** First occurrences *)

Lemma elem_of_first_occurrences (l : list Z) (x : Z) :
  x ∈ first_occurrences l <-> x ∈ l.
Proof.
  induction l as [|y l IH]; simpl; [done|].
  rewrite !elem_of_cons, list_elem_of_filter, IH.
  destruct (decide (x = y)); tauto.
Qed.

Lemma NoDup_first_occurrences (l : list Z) : NoDup (first_occurrences l).
Proof.
  induction l as [|y l IH]; simpl; [apply NoDup_nil_2|].
  apply NoDup_cons. split.
  - rewrite list_elem_of_filter. by intros [Hne _].
  - by apply NoDup_filter.
Qed.

Lemma filter_not_in_nil (l : list Z) : filter (fun x => x ∉ @nil Z) l = l.
Proof.
  induction l as [|y l IH]; [done|].
  rewrite filter_cons_True; [by rewrite IH|]. apply not_elem_of_nil.
Qed.

(** ** A run of calls *)

Section Runs.
Context (e : Env).

Lemma funderOrder_after (w : World) (tx : Tx) :
  Inv (vault w) ->
  funderOrder (after e w tx)
  = funderOrder w ++
    match tx_call tx, exec e w tx with
    | AddFunds _, Success _ _ =>
        if decide (tx_sender tx ∈ funderOrder w) then [] else [tx_sender tx]
    | _, _ => []
    end.
Proof.
  intros Hinv. unfold funderOrder. rewrite vault_after by done.
  destruct (tx_call tx); try by rewrite app_nil_r.
  destruct (exec e w tx); [|by rewrite app_nil_r].
  by apply getAllFunders_registered.
Qed.

Lemma depositors_cons (w : World) (tx : Tx) (rest : list Tx) :
  depositors e w (tx :: rest)
  = match tx_call tx, exec e w tx with
    | AddFunds _, Success _ _ => [tx_sender tx]
    | _, _ => []
    end ++ depositors e (after e w tx) rest.
Proof.
  simpl. destruct (tx_call tx); try done. by destruct (exec e w tx).
Qed.

(** The registry after a run: what it held before, then the new
    depositors in the order of their first deposit. *)
Lemma funderOrder_run (txs : list Tx) (w : World) :
  Inv (vault w) -> Forall (fun tx => is_address (tx_sender tx)) txs ->
  funderOrder (run e w txs)
  = funderOrder w ++
    filter (fun x => x ∉ funderOrder w) (first_occurrences (depositors e w txs)).
Proof.
  intros Hinv Hall. revert w Hinv.
  induction Hall as [|tx txs Htx Hall IH]; intros w Hinv.
  - simpl. by rewrite app_nil_r.
  - cbn [run]. rewrite IH by (by apply Inv_after).
    rewrite depositors_cons, funderOrder_after by done.
    set (rest := first_occurrences (depositors e (after e w tx) txs)).
    destruct (tx_call tx); simpl; rewrite ?app_nil_r; try done.
    destruct (exec e w tx); simpl; rewrite ?app_nil_r; [|done].
    fold rest. destruct (decide (tx_sender tx ∈ funderOrder w)) as [Hin|Hnin].
    + rewrite app_nil_r. f_equal.
      rewrite filter_cons_False by (intros Hn; by apply Hn).
      rewrite list_filter_filter_l; [done|]. intros x Hx ->. by apply Hx.
    + rewrite <- app_assoc. f_equal. simpl.
      rewrite filter_cons_True by done. f_equal.
      rewrite list_filter_filter. apply list_filter_iff.
      intros x. rewrite elem_of_app, list_elem_of_singleton. tauto.
Qed.

Lemma funderOrder_deploy (deployer : address) (bal : Z) (accts : gmap Z Z) :
  funderOrder (deploy deployer bal accts) = [].
Proof. reflexivity. Qed.

Lemma funderOrder_history (deployer : address) (bal : Z) (accts : gmap Z Z)
    (txs : list Tx) :
  Forall (fun tx => is_address (tx_sender tx)) txs ->
  let w0 := deploy deployer bal accts in
  funderOrder (run e w0 txs) = first_occurrences (depositors e w0 txs).
Proof.
  intros Hall w0. unfold w0.
  rewrite funderOrder_run; [|apply Inv_constructor|done].
  rewrite funderOrder_deploy. simpl. apply filter_not_in_nil.
Qed.

(** When every deposit of a run of deposits goes through, the depositors
    are the senders. *)
Lemma depositors_deposit_txs (ds : list (Z * Z)) (w : World) :
  all_succeed e w (deposit_txs ds) = true ->
  depositors e w (deposit_txs ds) = fst <$> ds.
Proof.
  revert w. induction ds as [|[s v] ds IH]; intros w Hok; [done|].
  simpl in *. unfold after.
  destruct (exec e w (mkTx s (AddFunds v))) as [r w'|err]; [|done].
  f_equal. by apply IH.
Qed.

Lemma deposit_txs_senders (ds : list (Z * Z)) :
  Forall is_address (fst <$> ds) ->
  Forall (fun tx => is_address (tx_sender tx)) (deposit_txs ds).
Proof.
  unfold deposit_txs. rewrite !Forall_fmap. intros Hall.
  eapply Forall_impl; [exact Hall|]. by intros [s v].
Qed.

End Runs.

(** ** Withdraw *)

Lemma attach_funded (w : World) (s : address) (v : Z) :
  0 <= v <= balance_of w s ->
  attach s v w
  = Ok {| vault := vault w; balance := balance w + v;
          accounts := <[s := balance_of w s - v]> (accounts w) |}.
Proof.
  intros [Hv1 Hv2]. unfold attach.
  destruct (Z.leb_spec 0 v); [|lia].
  destruct (Z.leb_spec v (balance_of w s)); [done|lia].
Qed.

(** C1: a withdrawal of more than 0.1 ether (100000000000000000 wei)
    reverts with LimitExceeded for every caller and every vault balance,
    and the world after the call is the world before it: balance,
    funderCount, funderOrder and funderFlags are unchanged. *)
Theorem withdraw_over_limit (e : Env) (w : World) (caller amount : Z) :
  100000000000000000 < amount ->
  let tx := mkTx caller (Withdraw amount) in
  exec e w tx = Reverted LimitExceeded
  /\ after e w tx = w
  /\ balance (after e w tx) = balance w
  /\ funderCount (after e w tx) = funderCount w
  /\ funderOrder (after e w tx) = funderOrder w
  /\ funders (vault (after e w tx)) = funders (vault w).
Proof.
  intros Hamount tx.
  assert (Hexec : exec e w tx = Reverted LimitExceeded).
  { unfold tx, exec, withdraw, limitWithdraw. simpl.
    destruct (Z.leb_spec amount 100000000000000000); [lia|done]. }
  assert (Hafter : after e w tx = w) by (unfold after; by rewrite Hexec).
  rewrite Hafter. by repeat split.
Qed.

Lemma withdraw_over_limit_witness :
  100000000000000000 < 500000000000000000
  /\ exec env0 (run env0 world0 scenario) (mkTx 13 (Withdraw 500000000000000000))
     = Reverted LimitExceeded.
Proof.
  split; [reflexivity|].
  apply (withdraw_over_limit env0 (run env0 world0 scenario) 13 500000000000000000).
  reflexivity.
Defined.

(** C2 as stated fails: a caller whose account refuses the value makes
    [transfer] revert although the vault holds the amount. *)
Lemma withdraw_refused_counterexample :
  1 <= 100000000000000000
  /\ 1 <= balance world_funded
  /\ exec env_refusing world_funded (mkTx 13 (Withdraw 1)) = Reverted TransferRefused
  /\ ~ ((exists r w', exec env_refusing world_funded (mkTx 13 (Withdraw 1)) = Success r w')
        <-> 1 <= balance world_funded).
Proof.
  assert (Hexec : exec env_refusing world_funded (mkTx 13 (Withdraw 1))
                  = Reverted TransferRefused) by reflexivity.
  repeat split; try done.
  intros [_ Hback]. destruct Hback as (r & w' & Hok); [done|].
  rewrite Hexec in Hok. discriminate Hok.
Qed.

(** C2, amended: a withdrawal of at most 0.1 ether succeeds exactly when
    the vault holds the amount and the requester's account takes the
    transfer, whether or not the requester is a funder; on success the
    vault's balance drops by the amount, the requester's balance grows by
    it and nothing else changes; when the vault holds too little the call
    reverts with InsufficientFunds, and when it holds enough but the
    requester refuses the value, with TransferRefused; after any revert
    the world is the one before the call. *)
Theorem withdraw_within_limit (e : Env) (w : World) (requester amount : Z) :
  0 <= amount <= 100000000000000000 ->
  let tx := mkTx requester (Withdraw amount) in
  ((exists w', exec e w tx = Success RNone w')
   <-> amount <= balance w /\ accepts_transfer e requester = true)
  /\ (forall r w', exec e w tx = Success r w' ->
        balance w' = balance w - amount
        /\ balance_of w' requester = balance_of w requester + amount
        /\ (forall a, a <> requester -> balance_of w' a = balance_of w a)
        /\ vault w' = vault w)
  /\ (balance w < amount -> exec e w tx = Reverted InsufficientFunds)
  /\ (amount <= balance w -> accepts_transfer e requester = false ->
        exec e w tx = Reverted TransferRefused)
  /\ (forall err, exec e w tx = Reverted err -> after e w tx = w).
Proof.
  intros [Hlo Hhi] tx.
  assert (Hexec : exec e w tx = finish RNone (transfer e requester amount w)).
  { unfold tx, exec, withdraw, limitWithdraw. simpl.
    destruct (Z.leb_spec amount 100000000000000000); [done|lia]. }
  rewrite Hexec. unfold after. rewrite Hexec. unfold transfer.
  destruct (Z.ltb_spec (balance w) amount) as [Hlt|Hge]; simpl.
  - split; [split|].
    + by intros [w' Hw'].
    + intros [Hle _]. lia.
    + repeat split; try done. lia.
  - destruct (accepts_transfer e requester) eqn:Hacc; simpl.
    + split; [split|split; [|split; [|split]]].
      * done.
      * intros _. by eexists.
      * intros r w' Hw'. inversion Hw'; subst r w'; clear Hw'. simpl.
        split; [done|]. split.
        { unfold balance_of at 1. simpl. by rewrite lookup_insert_eq. }
        split; [|done].
        intros a Ha. unfold balance_of at 1. simpl.
        by rewrite lookup_insert_ne by done.
      * lia.
      * done.
      * done.
    + split; [split|].
      * by intros [w' Hw'].
      * by intros [_ Habs].
      * repeat split; try done. lia.
Qed.

Lemma withdraw_within_limit_witness :
  let w := run env0 world0 scenario in
  exists w', exec env0 w (mkTx 13 (Withdraw 100000000000000000)) = Success RNone w'.
Proof.
  intros w.
  apply (withdraw_within_limit env0 w 13 100000000000000000); [lia|].
  split; [|reflexivity]. vm_compute. discriminate.
Defined.

(** ** Deposits and the registry *)

(** C3: after any finite run of deposits from the fresh vault, from
    arbitrary identities with arbitrary amounts and repetitions,
    getAllFunders returns the distinct depositors, once each, in the order
    of their first deposit. *)
Theorem getAllFunders_after_deposits (e : Env) (deployer bal : Z)
    (accts : gmap Z Z) (ds : list (Z * Z)) (caller : Z) :
  Forall is_address (fst <$> ds) ->
  all_succeed e (deploy deployer bal accts) (deposit_txs ds) = true ->
  let w := run e (deploy deployer bal accts) (deposit_txs ds) in
  let result := first_occurrences (fst <$> ds) in
  exec e w (mkTx caller GetAllFunders) = Success (RAddresses result) w
  /\ NoDup result
  /\ (forall id, id ∈ result <-> id ∈ fst <$> ds).
Proof.
  intros Haddr Hok w result. split; [|split].
  - unfold exec. simpl. do 2 f_equal.
    change (getAllFunders (vault w)) with (funderOrder w). unfold w.
    rewrite funderOrder_history by (by apply deposit_txs_senders).
    unfold result. by rewrite depositors_deposit_txs.
  - apply NoDup_first_occurrences.
  - intros id. apply elem_of_first_occurrences.
Qed.

Lemma getAllFunders_after_deposits_witness :
  exec env0 (run env0 world0 scenario) (mkTx 13 GetAllFunders)
  = Success (RAddresses [11; 12]) (run env0 world0 scenario).
Proof.
  apply (getAllFunders_after_deposits env0 10 0
           (<[11 := 5 * ether]> (<[12 := 5 * ether]> ∅))
           [(11, 2 * ether); (12, 2 * ether); (11, ether)] 13).
  - compute_done.
  - vm_compute. reflexivity.
Defined.

(** C4: in every reachable state funderCount is the length of
    funderOrder, funderOrder has no duplicates, and funderFlags holds
    exactly at the identities of funderOrder. *)
Theorem registry_invariant (e : Env) (w : World) :
  reachable e w ->
  funderCount w = Z.of_nat (length (funderOrder w))
  /\ NoDup (funderOrder w)
  /\ (forall id, funderFlags w id = true <-> id ∈ funderOrder w).
Proof.
  intros Hw. apply reachable_Inv in Hw. destruct Hw as [Hn Hnd _ Hflags _].
  split; [|by split].
  unfold funderCount, funderOrder. rewrite length_getAllFunders. lia.
Qed.

Lemma registry_invariant_witness :
  let w := after env0 world0 (mkTx 11 (AddFunds ether)) in
  funderCount w = Z.of_nat (length (funderOrder w)).
Proof.
  intros w.
  apply (registry_invariant env0 w).
  apply reach_call.
  - apply reach_deploy. compute_done.
  - compute_done.
Defined.

(** C5: a funded deposit never reverts, whatever the attached amount,
    zero included; when the sender is not flagged, it is appended to
    funderOrder at index funderCount, its flag is set and funderCount
    grows by exactly one. *)
Theorem deposit_new_funder (e : Env) (w : World) (s v : Z) :
  reachable e w -> 0 <= v <= balance_of w s ->
  exists w', exec e w (mkTx s (AddFunds v)) = Success RNone w'
    /\ (funderFlags w s = false ->
          funderOrder w' = funderOrder w ++ [s]
          /\ funderOrder w' !! Z.to_nat (funderCount w) = Some s
          /\ getFunderAtIndex (vault w') (funderCount w) = s
          /\ funderFlags w' s = true
          /\ (forall id, id <> s -> funderFlags w' id = funderFlags w id)
          /\ funderCount w' = funderCount w + 1).
Proof.
  intros Hw Hv. apply reachable_Inv in Hw.
  unfold exec. simpl. rewrite attach_funded by done. simpl.
  rewrite addFunds_registered by done. simpl.
  eexists. split; [reflexivity|].
  unfold funderFlags, funderOrder, funderCount, registered. simpl.
  intros Hnew. rewrite Hnew.
  pose proof (inv_count _ Hw) as Hn.
  rewrite getAllFunders_push by done.
  split; [done|]. split.
  { rewrite lookup_app_r by (rewrite length_getAllFunders; lia).
    by rewrite length_getAllFunders, Nat.sub_diag. }
  split.
  { unfold getFunderAtIndex, lutFunders_at. simpl. by rewrite lookup_insert_eq. }
  split.
  { unfold funders_at. simpl. by rewrite lookup_insert_eq. }
  split; [|done].
  intros id Hid. unfold funders_at. simpl. by rewrite lookup_insert_ne.
Qed.

Lemma deposit_new_funder_witness :
  exists w', exec env0 world0 (mkTx 11 (AddFunds 0)) = Success RNone w'
    /\ (funderFlags world0 11 = false ->
          funderOrder w' = funderOrder world0 ++ [11]
          /\ funderOrder w' !! Z.to_nat (funderCount world0) = Some 11
          /\ getFunderAtIndex (vault w') (funderCount world0) = 11
          /\ funderFlags w' 11 = true
          /\ (forall id, id <> 11 -> funderFlags w' id = funderFlags world0 id)
          /\ funderCount w' = funderCount world0 + 1).
Proof.
  apply (deposit_new_funder env0 world0 11 0).
  - apply reach_deploy. compute_done.
  - vm_compute. split; discriminate.
Defined.

(** C6: a funded deposit from an identity that is already flagged leaves
    funderCount, funderOrder and funderFlags as they were, and the vault's
    balance grows by exactly the deposited amount. *)
Theorem deposit_known_funder (e : Env) (w : World) (s v : Z) :
  funderFlags w s = true -> 0 <= v <= balance_of w s ->
  exists w', exec e w (mkTx s (AddFunds v)) = Success RNone w'
    /\ funderCount w' = funderCount w
    /\ funderOrder w' = funderOrder w
    /\ funders (vault w') = funders (vault w)
    /\ vault w' = vault w
    /\ balance w' = balance w + v.
Proof.
  intros Hs Hv. unfold exec. simpl. rewrite attach_funded by done. simpl.
  rewrite addFunds_known by done. simpl.
  eexists. split; [reflexivity|]. by repeat split.
Qed.

Lemma deposit_known_funder_witness :
  let w := run env0 world0 scenario in
  exists w', exec env0 w (mkTx 11 (AddFunds ether)) = Success RNone w'
    /\ funderCount w' = funderCount w
    /\ funderOrder w' = funderOrder w
    /\ funders (vault w') = funders (vault w)
    /\ vault w' = vault w
    /\ balance w' = balance w + ether.
Proof.
  intros w. apply (deposit_known_funder env0 w 11 ether).
  - vm_compute. reflexivity.
  - vm_compute. split; discriminate.
Defined.

(** ** Lookup by index *)

Lemma Inv_run (e : Env) (w : World) (txs : list Tx) :
  Inv (vault w) -> Forall (fun tx => is_address (tx_sender tx)) txs ->
  Inv (vault (run e w txs)).
Proof.
  intros Hinv Hall. revert w Hinv.
  induction Hall as [|tx txs Htx Hall IH]; intros w Hinv; simpl; [done|].
  apply IH. by apply Inv_after.
Qed.

Lemma getFunderAtIndex_lookup (st : Storage) (i : Z) :
  0 <= i < numOfFunders st ->
  getAllFunders st !! Z.to_nat i = Some (getFunderAtIndex st i).
Proof.
  intros Hi. rewrite lookup_getAllFunders by lia. by rewrite Z2Nat.id by lia.
Qed.

(** C7: getFunderAtIndex never reverts; below funderCount it returns the
    i-th distinct depositor in first-deposit order, and from funderCount
    on it returns the zero address. *)
Theorem getFunderAtIndex_total (e : Env) (deployer bal : Z) (accts : gmap Z Z)
    (txs : list Tx) (caller i : Z) :
  Forall (fun tx => is_address (tx_sender tx)) txs ->
  is_uint8 i ->
  let w0 := deploy deployer bal accts in
  let w := run e w0 txs in
  let history := first_occurrences (depositors e w0 txs) in
  exists a, exec e w (mkTx caller (GetFunderAtIndex i)) = Success (RAddress a) w
    /\ funderCount w = Z.of_nat (length history)
    /\ (i < funderCount w -> history !! Z.to_nat i = Some a)
    /\ (funderCount w <= i -> a = address_zero).
Proof.
  intros Hall [Hi0 Hi] w0 w history.
  assert (Hinv : Inv (vault w)).
  { apply Inv_run; [apply Inv_constructor|done]. }
  assert (Hhist : funderOrder w = history).
  { by apply funderOrder_history. }
  exists (getFunderAtIndex (vault w) i). split; [done|]. split; [|split].
  - rewrite <- Hhist. unfold funderCount, funderOrder.
    rewrite length_getAllFunders. pose proof (inv_count _ Hinv). lia.
  - intros Hlt. rewrite <- Hhist. apply getFunderAtIndex_lookup.
    unfold funderCount in Hlt. lia.
  - intros Hge. by apply (inv_unset _ Hinv).
Qed.

Lemma getFunderAtIndex_total_witness :
  exec env0 (run env0 world0 scenario) (mkTx 13 (GetFunderAtIndex 1))
  = Success (RAddress 12) (run env0 world0 scenario)
  /\ exec env0 (run env0 world0 scenario) (mkTx 13 (GetFunderAtIndex 2))
     = Success (RAddress address_zero) (run env0 world0 scenario).
Proof.
  split.
  - destruct (getFunderAtIndex_total env0 10 0
                (<[11 := 5 * ether]> (<[12 := 5 * ether]> ∅)) scenario 13 1)
      as (a & Hexec & _ & Hlt & _).
    + compute_done.
    + compute_done.
    + reflexivity.
  - destruct (getFunderAtIndex_total env0 10 0
                (<[11 := 5 * ether]> (<[12 := 5 * ether]> ∅)) scenario 13 2)
      as (a & Hexec & _ & _ & Hge).
    + compute_done.
    + compute_done.
    + reflexivity.
Defined.

(** ** Administration *)

(** C8: each of the two administrative calls reverts with NotAuthorized
    exactly when the caller is not the owner, and otherwise succeeds and
    leaves the world as it was. *)
Theorem admin_only_owner (e : Env) (w : World) (caller : Z) :
  (exec e w (mkTx caller Test1) = Reverted NotAuthorized <-> caller <> owner (vault w))
  /\ (exec e w (mkTx caller Test1) = Success RNone w <-> caller = owner (vault w))
  /\ (exec e w (mkTx caller Test2) = Reverted NotAuthorized <-> caller <> owner (vault w))
  /\ (exec e w (mkTx caller Test2) = Success RNone w <-> caller = owner (vault w)).
Proof.
  assert (Hsame : with_vault w (vault w) = w) by (by destruct w).
  unfold exec, test1, test2, onlyOwner. simpl.
  destruct (Z.eqb_spec caller (owner (vault w))) as [Heq|Hne]; simpl;
    rewrite ?Hsame; repeat split; intros; done.
Qed.

(** ** Plain receipt of value *)

(** C9: value sent straight to the vault raises its balance by the
    attached amount, never reverts, and leaves funderCount, funderOrder,
    funderFlags and the owner as they were. *)
Theorem receive_keeps_registry (e : Env) (w : World) (s v : Z) :
  0 <= v <= balance_of w s ->
  exists w', exec e w (mkTx s (Receive v)) = Success RNone w'
    /\ balance w' = balance w + v
    /\ funderCount w' = funderCount w
    /\ funderOrder w' = funderOrder w
    /\ funders (vault w') = funders (vault w)
    /\ owner (vault w') = owner (vault w)
    /\ vault w' = vault w.
Proof.
  intros Hv. unfold exec. simpl. rewrite attach_funded by done. simpl.
  eexists. split; [reflexivity|]. by repeat split.
Qed.

Lemma receive_keeps_registry_witness :
  exists w', exec env0 world0 (mkTx 11 (Receive ether)) = Success RNone w'
    /\ balance w' = balance world0 + ether
    /\ funderCount w' = funderCount world0
    /\ funderOrder w' = funderOrder world0
    /\ funders (vault w') = funders (vault world0)
    /\ owner (vault w') = owner (vault world0)
    /\ vault w' = vault world0.
Proof.
  apply (receive_keeps_registry env0 world0 11 ether).
  vm_compute. split; discriminate.
Defined.

(** ** The width of the index *)

(** C10: the index of getFunderAtIndex is a uint8, so it reads one of the
    positions 0 to 255; a funder registered at position 256 or later is
    in the result of getAllFunders, and no index returns it. *)
Theorem index_beyond_uint8 (e : Env) (w : World) (p : nat) (a caller : Z) :
  reachable e w -> (256 <= p)%nat -> funderOrder w !! p = Some a ->
  exec e w (mkTx caller GetAllFunders) = Success (RAddresses (funderOrder w)) w
  /\ a ∈ funderOrder w
  /\ (forall i, is_uint8 i ->
        exists a', exec e w (mkTx caller (GetFunderAtIndex i)) = Success (RAddress a') w
          /\ funderOrder w !! Z.to_nat i = Some a'
          /\ (Z.to_nat i < 256)%nat
          /\ a' <> a).
Proof.
  intros Hw Hp Ha. apply reachable_Inv in Hw.
  split; [done|]. split; [by eapply list_elem_of_lookup_2|].
  intros i [Hi0 Hi].
  assert (Hlen : (p < length (funderOrder w))%nat) by (by eapply lookup_lt_Some).
  unfold funderOrder in Hlen. rewrite length_getAllFunders in Hlen.
  exists (getFunderAtIndex (vault w) i).
  assert (Hlook : funderOrder w !! Z.to_nat i = Some (getFunderAtIndex (vault w) i)).
  { apply getFunderAtIndex_lookup. lia. }
  split; [done|]. split; [done|]. split; [lia|].
  intros Heq. rewrite Heq in Hlook.
  pose proof (NoDup_lookup _ _ _ _ (inv_nodup _ Hw) Hlook Ha). lia.
Qed.

Lemma world_crowded_reachable : reachable env0 world_crowded.
Proof.
  apply reachable_run.
  - apply reach_deploy. compute_done.
  - compute_done.
Qed.

Lemma index_beyond_uint8_witness :
  exec env0 world_crowded (mkTx 0 GetAllFunders)
  = Success (RAddresses (funderOrder world_crowded)) world_crowded
  /\ 257 ∈ funderOrder world_crowded
  /\ (forall i, is_uint8 i ->
        exists a', exec env0 world_crowded (mkTx 0 (GetFunderAtIndex i))
                   = Success (RAddress a') world_crowded
          /\ funderOrder world_crowded !! Z.to_nat i = Some a'
          /\ (Z.to_nat i < 256)%nat
          /\ a' <> 257).
Proof.
  apply (index_beyond_uint8 env0 world_crowded 256 257 0).
  - exact world_crowded_reachable.
  - apply le_n.
  - vm_compute. reflexivity.
Defined.

(** ** Further properties of the vault *)

Lemma addFunds_frame (e : Env) (s : address) (st st' : Storage) :
  addFunds e s st = Ok st' -> owner st' = owner st /\ testNum st' = testNum st.
Proof.
  unfold addFunds, post_increment. destruct (funders_at st s); simpl.
  - by intros [= <-].
  - destruct (checked_arith e); simpl.
    + destruct (numOfFunders st <? uint256_max); simpl; [|done]. by intros [= <-].
    + by intros [= <-].
Qed.

Lemma owner_after (e : Env) (w : World) (tx : Tx) :
  owner (vault (after e w tx)) = owner (vault w)
  /\ testNum (vault (after e w tx)) = testNum (vault w).
Proof.
  unfold after, exec. destruct tx as [s c]. simpl. destruct c; simpl; try done.
  - unfold attach.
    destruct ((0 <=? value) && (value <=? balance_of w s)); simpl; [|done].
    destruct (addFunds e s (vault w)) as [st'|err] eqn:Hadd; simpl; [|done].
    by apply addFunds_frame in Hadd.
  - unfold attach.
    by destruct ((0 <=? value) && (value <=? balance_of w s)).
  - unfold withdraw, limitWithdraw, transfer.
    destruct (withdrawAmount <=? 100000000000000000); [|done].
    destruct (balance w <? withdrawAmount); [done|].
    by destruct (accepts_transfer e s).
  - unfold test1, onlyOwner. by destruct (s =? owner (vault w)).
  - unfold test2, onlyOwner. by destruct (s =? owner (vault w)).
Qed.

Lemma owner_run (e : Env) (txs : list Tx) (w : World) :
  owner (vault (run e w txs)) = owner (vault w)
  /\ testNum (vault (run e w txs)) = testNum (vault w).
Proof.
  revert w. induction txs as [|tx txs IH]; intros w; simpl; [done|].
  destruct (IH (after e w tx)) as [-> ->]. apply owner_after.
Qed.

(** X1: no call writes [owner] or [testNum]: after any run of calls the
    owner is still the deployer and testNum is still 1000. *)
Theorem owner_is_deployer (e : Env) (deployer bal : Z) (accts : gmap Z Z)
    (txs : list Tx) :
  let w := run e (deploy deployer bal accts) txs in
  owner (vault w) = deployer /\ testNum (vault w) = 1000.
Proof.
  intros w. unfold w.
  by destruct (owner_run e txs (deploy deployer bal accts)) as [-> ->].
Qed.

(** X2: whatever calls came before, test1 and test2 succeed for the
    deployer, leaving the world as it is, and revert with NotAuthorized
    for everybody else. *)
Theorem admin_only_deployer (e : Env) (deployer bal : Z) (accts : gmap Z Z)
    (txs : list Tx) (caller : Z) :
  let w := run e (deploy deployer bal accts) txs in
  let verdict := if decide (caller = deployer) then Success RNone w
                 else Reverted NotAuthorized in
  exec e w (mkTx caller Test1) = verdict
  /\ exec e w (mkTx caller Test2) = verdict.
Proof.
  intros w verdict.
  assert (Howner : owner (vault w) = deployer).
  { unfold w. by destruct (owner_run e txs (deploy deployer bal accts)) as [-> _]. }
  assert (Hsame : with_vault w (vault w) = w) by (by destruct w).
  unfold verdict, exec, test1, test2, onlyOwner. simpl. rewrite Howner.
  destruct (Z.eqb_spec caller deployer) as [Heq|Hne].
  - rewrite decide_True by done. simpl. by rewrite Hsame.
  - by rewrite decide_False by done.
Qed.

Lemma balance_of_insert_eq (st : Storage) (b : Z) (m : gmap Z Z) (s x : Z) :
  balance_of {| vault := st; balance := b; accounts := <[s := x]> m |} s = x.
Proof. unfold balance_of. simpl. by rewrite lookup_insert_eq. Qed.

Lemma balance_of_insert_ne (w : World) (st : Storage) (b : Z) (s a x : Z) :
  a <> s ->
  balance_of {| vault := st; balance := b; accounts := <[s := x]> (accounts w) |} a
  = balance_of w a.
Proof. intros Ha. unfold balance_of. simpl. by rewrite lookup_insert_ne. Qed.

(** X3: no call creates or destroys value: the vault's balance and the
    caller's balance add up to the same amount before and after any call,
    and no other account's balance changes. *)
Theorem value_is_conserved (e : Env) (w : World) (tx : Tx) :
  let w' := after e w tx in
  balance w' + balance_of w' (tx_sender tx) = balance w + balance_of w (tx_sender tx)
  /\ (forall a, a <> tx_sender tx -> balance_of w' a = balance_of w a).
Proof.
  unfold after, exec. destruct tx as [s c]. simpl. destruct c; simpl; try done.
  - unfold attach.
    destruct ((0 <=? value) && (value <=? balance_of w s)); simpl; [|done].
    destruct (addFunds e s (vault w)) as [st'|err]; simpl; [|done].
    unfold with_vault. simpl. rewrite balance_of_insert_eq.
    split; [lia|]. intros a Ha. by apply balance_of_insert_ne.
  - unfold attach.
    destruct ((0 <=? value) && (value <=? balance_of w s)); simpl; [|done].
    rewrite balance_of_insert_eq.
    split; [lia|]. intros a Ha. by apply balance_of_insert_ne.
  - unfold withdraw, limitWithdraw, transfer.
    destruct (withdrawAmount <=? 100000000000000000); [|done].
    destruct (balance w <? withdrawAmount); [done|].
    destruct (accepts_transfer e s); simpl; [|done].
    rewrite balance_of_insert_eq.
    split; [lia|]. intros a Ha. by apply balance_of_insert_ne.
  - unfold test1, onlyOwner. by destruct (s =? owner (vault w)).
  - unfold test2, onlyOwner. by destruct (s =? owner (vault w)).
Qed.

Lemma balance_after (e : Env) (w : World) (tx : Tx) :
  balance w - 100000000000000000 <= balance (after e w tx)
  /\ (0 <= balance w -> 0 <= balance (after e w tx)).
Proof.
  unfold after, exec. destruct tx as [s c]. simpl.
  destruct c; simpl; try (split; lia).
  - unfold attach.
    destruct (Z.leb_spec 0 value); simpl; [|split; lia].
    destruct (value <=? balance_of w s); simpl; [|split; lia].
    destruct (addFunds e s (vault w)); simpl; split; lia.
  - unfold attach.
    destruct (Z.leb_spec 0 value); simpl; [|split; lia].
    destruct (value <=? balance_of w s); simpl; split; lia.
  - unfold withdraw, limitWithdraw, transfer.
    destruct (Z.leb_spec withdrawAmount 100000000000000000); simpl; [|split; lia].
    destruct (Z.ltb_spec (balance w) withdrawAmount); simpl; [split; lia|].
    destruct (accepts_transfer e s); simpl; split; lia.
  - unfold test1, onlyOwner. destruct (s =? owner (vault w)); simpl; split; lia.
  - unfold test2, onlyOwner. destruct (s =? owner (vault w)); simpl; split; lia.
Qed.

(** X4: no call takes more than 0.1 ether out of the vault, so a run of
    n calls takes out at most n times 0.1 ether. *)
Theorem drain_is_capped (e : Env) (w : World) (txs : list Tx) :
  balance w - 100000000000000000 * Z.of_nat (length txs) <= balance (run e w txs).
Proof.
  revert w. induction txs as [|tx txs IH]; intros w.
  - simpl. lia.
  - cbn [run length]. specialize (IH (after e w tx)).
    pose proof (balance_after e w tx) as [Hcap _]. lia.
Qed.

(** X5: the vault never pays out more than it holds: a balance that is
    not negative stays so through any run of calls. *)
Theorem vault_stays_solvent (e : Env) (w : World) (txs : list Tx) :
  0 <= balance w -> 0 <= balance (run e w txs).
Proof.
  revert w. induction txs as [|tx txs IH]; intros w Hw; simpl; [done|].
  apply IH. by apply balance_after.
Qed.

Lemma vault_stays_solvent_witness :
  0 <= balance (run env0 world0
                  (scenario ++ [mkTx 13 (Withdraw 100000000000000000)])).
Proof.
  apply (vault_stays_solvent env0 world0). vm_compute. discriminate.
Defined.

(** ** Further properties of the registry *)

(** X6: the registry is append-only: after any run of calls the array of
    funders starts with the array as it was before, and the count has not
    gone down. *)
Theorem registry_append_only (e : Env) (w : World) (txs : list Tx) :
  reachable e w -> Forall (fun tx => is_address (tx_sender tx)) txs ->
  (exists added, funderOrder (run e w txs) = funderOrder w ++ added)
  /\ funderCount w <= funderCount (run e w txs).
Proof.
  intros Hw Hall. pose proof (reachable_Inv e w Hw) as Hinv.
  pose proof (funderOrder_run e txs w Hinv Hall) as Horder.
  split; [by eexists|].
  pose proof (Inv_run e w txs Hinv Hall) as Hinv'.
  pose proof (f_equal length Horder) as Hlen.
  rewrite length_app in Hlen. unfold funderOrder in Hlen.
  rewrite !length_getAllFunders in Hlen.
  pose proof (inv_count _ Hinv). pose proof (inv_count _ Hinv').
  unfold funderCount. lia.
Qed.

Lemma registry_append_only_witness :
  (exists added, funderOrder (run env0 world0 scenario) = funderOrder world0 ++ added)
  /\ funderCount world0 <= funderCount (run env0 world0 scenario).
Proof.
  apply (registry_append_only env0 world0 scenario).
  - apply reach_deploy. compute_done.
  - compute_done.
Defined.

(** X7: a funder keeps its index: what getFunderAtIndex returns for an
    index below the count is what it returns after any further calls. *)
Theorem funder_index_is_stable (e : Env) (w : World) (txs : list Tx) (i : Z) :
  reachable e w -> Forall (fun tx => is_address (tx_sender tx)) txs ->
  0 <= i < funderCount w ->
  getFunderAtIndex (vault (run e w txs)) i = getFunderAtIndex (vault w) i.
Proof.
  intros Hw Hall Hi. pose proof (reachable_Inv e w Hw) as Hinv.
  pose proof (funderOrder_run e txs w Hinv Hall) as Horder.
  pose proof (Inv_run e w txs Hinv Hall) as Hinv'.
  assert (Hcount : funderCount w <= funderCount (run e w txs)).
  { pose proof (f_equal length Horder) as Hlen.
    rewrite length_app in Hlen. unfold funderOrder in Hlen.
    rewrite !length_getAllFunders in Hlen.
    pose proof (inv_count _ Hinv). pose proof (inv_count _ Hinv').
    unfold funderCount. lia. }
  unfold funderCount in *.
  pose proof (getFunderAtIndex_lookup (vault w) i Hi) as Hold.
  assert (Hi' : 0 <= i < numOfFunders (vault (run e w txs))) by lia.
  pose proof (getFunderAtIndex_lookup _ i Hi') as Hnew.
  unfold funderOrder in Horder. rewrite Horder in Hnew.
  rewrite lookup_app_l in Hnew by (rewrite length_getAllFunders; lia).
  congruence.
Qed.

Lemma funder_index_is_stable_witness :
  getFunderAtIndex (vault (run env0 (run env0 world0 scenario)
                             [mkTx 14 (AddFunds 0); mkTx 13 (Withdraw 1)])) 1
  = getFunderAtIndex (vault (run env0 world0 scenario)) 1.
Proof.
  apply (funder_index_is_stable env0 (run env0 world0 scenario)).
  - apply reachable_run; [apply reach_deploy|]; compute_done.
  - compute_done.
  - vm_compute. split; discriminate || reflexivity.
Defined.

(** X8: no call clears a flag or removes a funder: an identity that is
    flagged stays flagged, and stays in the result of getAllFunders,
    through any run of calls. *)
Theorem funder_flag_is_permanent (e : Env) (w : World) (txs : list Tx) (id : Z) :
  reachable e w -> Forall (fun tx => is_address (tx_sender tx)) txs ->
  funderFlags w id = true ->
  funderFlags (run e w txs) id = true /\ id ∈ funderOrder (run e w txs).
Proof.
  intros Hw Hall Hid. pose proof (reachable_Inv e w Hw) as Hinv.
  pose proof (Inv_run e w txs Hinv Hall) as Hinv'.
  assert (Hin : id ∈ funderOrder (run e w txs)).
  { rewrite (funderOrder_run e txs w Hinv Hall). apply elem_of_app. left.
    by apply (inv_flags _ Hinv). }
  split; [|done]. by apply (inv_flags _ Hinv').
Qed.

Lemma funder_flag_is_permanent_witness :
  funderFlags (run env0 (run env0 world0 scenario)
                 [mkTx 11 (Withdraw 1); mkTx 14 (AddFunds 0)]) 11 = true
  /\ 11 ∈ funderOrder (run env0 (run env0 world0 scenario)
                         [mkTx 11 (Withdraw 1); mkTx 14 (AddFunds 0)]).
Proof.
  apply (funder_flag_is_permanent env0 (run env0 world0 scenario)).
  - apply reachable_run; [apply reach_deploy|]; compute_done.
  - compute_done.
  - vm_compute. reflexivity.
Defined.


(** X10: addFunds is the only function that writes the storage: after a
    call of anything else, a withdrawal that pays out included, owner,
    counter, flags and array are what they were. *)
Theorem only_addFunds_writes (e : Env) (w : World) (tx : Tx) :
  (forall value, tx_call tx <> AddFunds value) ->
  vault (after e w tx) = vault w.
Proof.
  intros Hcall. unfold after, exec. destruct tx as [s c]. simpl in *.
  destruct c; simpl; try done.
  - by destruct (Hcall value).
  - unfold attach.
    by destruct ((0 <=? value) && (value <=? balance_of w s)).
  - unfold withdraw, limitWithdraw, transfer.
    destruct (withdrawAmount <=? 100000000000000000); [|done].
    destruct (balance w <? withdrawAmount); [done|].
    by destruct (accepts_transfer e s).
  - unfold test1, onlyOwner. by destruct (s =? owner (vault w)).
  - unfold test2, onlyOwner. by destruct (s =? owner (vault w)).
Qed.

Lemma only_addFunds_writes_witness :
  let w := run env0 world0 scenario in
  vault (after env0 w (mkTx 13 (Withdraw 100000000000000000))) = vault w
  /\ balance (after env0 w (mkTx 13 (Withdraw 100000000000000000))) <> balance w.
Proof.
  intros w. split.
  - apply (only_addFunds_writes env0 w). intros value. discriminate.
  - vm_compute. discriminate.
Defined.

(** X11: registering is idempotent: when addFunds succeeds for a sender,
    the sender is flagged in the resulting storage and a second addFunds
    by the same sender returns that storage unchanged, under either
    arithmetic. *)
Theorem addFunds_idempotent (e : Env) (s : address) (st st1 : Storage) :
  addFunds e s st = Ok st1 ->
  funders_at st1 s = true /\ addFunds e s st1 = Ok st1.
Proof.
  intros Hadd.
  assert (Hflag : funders_at st1 s = true).
  { revert Hadd. unfold addFunds, post_increment.
    destruct (funders_at st s) eqn:Hs; simpl.
    - by intros [= <-].
    - destruct (checked_arith e); simpl.
      + destruct (numOfFunders st <? uint256_max); simpl; [|done].
        intros [= <-]. unfold funders_at. simpl. by rewrite lookup_insert_eq.
      + intros [= <-]. unfold funders_at. simpl. by rewrite lookup_insert_eq. }
  split; [done|]. by apply addFunds_known.
Qed.

Lemma addFunds_idempotent_witness :
  exists st1, addFunds env0 11 (Faucet_constructor 10) = Ok st1
    /\ numOfFunders st1 = 1
    /\ funders_at st1 11 = true
    /\ addFunds env0 11 st1 = Ok st1.
Proof.
  eexists. split; [reflexivity|]. split; [reflexivity|].
  apply (addFunds_idempotent env0 11 (Faucet_constructor 10)). reflexivity.
Defined.

(** X12: the counter cannot overflow: in every reachable state it is at
    most the number of addresses, 2 ^ 160, which is below the largest
    uint. *)
Theorem funderCount_bounded (e : Env) (w : World) :
  reachable e w -> 0 <= funderCount w <= 2 ^ 160 /\ funderCount w < uint256_max.
Proof.
  intros Hw. apply reachable_Inv in Hw.
  pose proof (Inv_bound _ Hw) as Hb. pose proof (Inv_room _ Hw) as Hr.
  unfold funderCount. unfold address_bound in Hb. split; [exact Hb|lia].
Qed.

Lemma funderCount_bounded_witness :
  0 <= funderCount world_crowded <= 2 ^ 160 /\ funderCount world_crowded < uint256_max.
Proof.
  apply (funderCount_bounded env0 world_crowded).
  apply reachable_run; [apply reach_deploy|]; compute_done.
Defined.

Lemma length_first_occurrences (l : list Z) :
  (length (first_occurrences l) <= length l)%nat.
Proof.
  induction l as [|x l IH]; simpl; [done|].
  pose proof (length_filter (fun y => y <> x) (first_occurrences l)). lia.
Qed.

Lemma length_depositors (e : Env) (txs : list Tx) (w : World) :
  (length (depositors e w txs) <= length txs)%nat.
Proof.
  revert w. induction txs as [|tx txs IH]; intros w; [done|].
  rewrite depositors_cons, length_app. specialize (IH (after e w tx)).
  cbn [length]. destruct (tx_call tx); simpl; try lia.
  destruct (exec e w tx); simpl; lia.
Qed.

(** X15: a call registers at most one funder: after a run of calls from
    deployment the count of funders is at most the number of calls. *)
Theorem funderCount_at_most_calls (e : Env) (deployer bal : Z)
    (accts : gmap Z Z) (txs : list Tx) :
  Forall (fun tx => is_address (tx_sender tx)) txs ->
  0 <= funderCount (run e (deploy deployer bal accts) txs) <= Z.of_nat (length txs).
Proof.
  intros Hall.
  pose proof (funderOrder_history e deployer bal accts txs Hall) as Horder.
  simpl in Horder. apply (f_equal length) in Horder.
  unfold funderOrder in Horder. rewrite length_getAllFunders in Horder.
  pose proof (Inv_run e (deploy deployer bal accts) txs
                (Inv_constructor deployer) Hall) as Hinv.
  pose proof (inv_count _ Hinv) as Hn.
  pose proof (length_first_occurrences
                (depositors e (deploy deployer bal accts) txs)).
  pose proof (length_depositors e txs (deploy deployer bal accts)).
  unfold funderCount. lia.
Qed.

Lemma funderCount_at_most_calls_witness :
  0 <= funderCount (run env0 world0 scenario) <= Z.of_nat (length scenario).
Proof.
  apply (funderCount_at_most_calls env0 10 0
           (<[11 := 5 * ether]> (<[12 := 5 * ether]> ∅)) scenario).
  compute_done.
Defined.

(** ** Migrations *)

Module MigrationsFacts.
Import Migrations.

Lemma last_cons_default (c d : Z) (l : list Z) :
  default d (last (c :: l)) = default c (last l).
Proof.
  revert c d. induction l as [|x l IH]; intros c d; [done|].
  change (last (c :: x :: l)) with (last (x :: l)).
  by rewrite (IH x d), (IH x c).
Qed.

Lemma owner_after_call (st : Storage) (call : Z * Z) :
  Migrations.owner (after st call) = Migrations.owner st.
Proof.
  unfold after, setCompleted, restricted.
  by destruct (fst call =? Migrations.owner st).
Qed.

Lemma run_owner (st : Storage) (calls : list (Z * Z)) :
  Migrations.owner (run st calls) = Migrations.owner st.
Proof.
  revert st. induction calls as [|call calls IH]; intros st; [done|].
  unfold run. simpl. fold (run (after st call) calls).
  rewrite IH. apply owner_after_call.
Qed.

(** X13: after any run of setCompleted calls the owner is the deployer
    and last_completed_migration is the argument of the latest call that
    the deployer sent, or zero when the deployer sent none. *)
Theorem last_completed_is_owners_last (deployer : Z) (calls : list (Z * Z)) :
  let st := run (deploy deployer) calls in
  Migrations.owner st = deployer
  /\ last_completed_migration st = default 0 (last (sent_by deployer calls)).
Proof.
  intros st. split; [apply (run_owner (deploy deployer))|].
  unfold st. change 0 with (last_completed_migration (deploy deployer)).
  assert (Howner : Migrations.owner (deploy deployer) = deployer) by done.
  revert Howner. generalize (deploy deployer) as st0. clear st.
  induction calls as [|[s c] calls IH]; intros st0 Howner; [done|].
  unfold run. simpl. fold (run (after st0 (s, c)) calls).
  rewrite IH by (by rewrite owner_after_call).
  unfold sent_by, after, setCompleted, restricted. simpl. rewrite Howner.
  destruct (Z.eqb_spec s deployer) as [Heq|Hne]; simpl.
  - rewrite filter_cons_True by done. rewrite fmap_cons. simpl.
    by rewrite last_cons_default.
  - by rewrite filter_cons_False by done.
Qed.

(** X14: calls by anybody but the owner have no effect: a run of calls
    ends in the storage that the owner's calls alone lead to. *)
Theorem strangers_change_nothing (st : Storage) (calls : list (Z * Z)) :
  run st calls = run st (filter (fun c => fst c = Migrations.owner st) calls).
Proof.
  revert st. induction calls as [|[s c] calls IH]; intros st; [done|].
  unfold run at 1. simpl. fold (run (after st (s, c)) calls).
  rewrite IH.
  assert (Howner : Migrations.owner (after st (s, c)) = Migrations.owner st).
  { apply (run_owner st [(s, c)]). }
  rewrite Howner.
  destruct (decide (s = Migrations.owner st)) as [Heq|Hne].
  - by rewrite filter_cons_True by done.
  - rewrite filter_cons_False by done. f_equal.
    unfold after, setCompleted, restricted. simpl.
    by destruct (Z.eqb_spec s (Migrations.owner st)).
Qed.

End MigrationsFacts.
